(** * Woodall numbers: [is_woodall] and [naive_is_woodall]

    A shallow embedding of the two predicates of [Woodall.ipynb] and the
    properties stated about them.

    Python [int] is arbitrary precision and is modelled by [Z].  Python
    [float] is IEEE-754 binary64 and is modelled by [spec_float] with
    precision 53 and maximal exponent 1024.  A call either returns a value
    or raises an exception, which is modelled by [result]. *)

From Stdlib Require Import ZArith List Bool Lia.
From Stdlib Require Import Floats.SpecFloat.
Import ListNotations.

Local Open Scope Z_scope.

(** ** Outcome of a Python call *)

Inductive exn : Type :=
| OverflowError
| ValueError.

Inductive result (A : Type) : Type :=
| Ok (a : A)
| Raise (e : exn).

Arguments Ok {A} a.
Arguments Raise {A} e.

Definition bind {A B : Type} (r : result A) (f : A -> result B) : result B :=
  match r with
  | Ok a => f a
  | Raise e => Raise e
  end.

Notation "x <- r ;; k" := (bind r (fun x => k))
  (at level 61, r at next level, right associativity).

(** ** Python floats *)

Module PyFloat.

Definition prec : Z := 53.
Definition emax : Z := 1024.

Definition float : Type := spec_float.

(** [float(n)] for an [int] [n]: the nearest binary64 value, ties to even;
    an [int] whose rounded value does not fit raises [OverflowError]
    ("int too large to convert to float"). *)
Definition of_int (n : Z) : result float :=
  match binary_normalize prec emax n 0 false with
  | S754_infinity _ => Raise OverflowError
  | x => Ok x
  end.

(** [a / b] on two small non-zero [int]s: both operands convert exactly and
    the quotient is the correctly rounded binary64 division. *)
Definition true_div (a b : Z) : float :=
  SFdiv prec emax
    (binary_normalize prec emax a 0 false)
    (binary_normalize prec emax b 0 false).

(** [int(x)]: truncation toward zero; [int(inf)] raises [OverflowError]
    and [int(nan)] raises [ValueError]. *)
Definition to_int (x : float) : result Z :=
  match x with
  | S754_zero _ => Ok 0
  | S754_infinity _ => Raise OverflowError
  | S754_nan => Raise ValueError
  | S754_finite s m e => Ok (cond_Zopp s (Z.shiftl (Zpos m) e))
  end.

End PyFloat.

(** ** The builtins used by the predicates *)

(** [range(lo, hi)]: the integers [lo, lo+1, ..., hi-1], empty when
    [hi <= lo]. *)
Definition range (lo hi : Z) : list Z :=
  map (fun i => lo + Z.of_nat i) (seq 0 (Z.to_nat (hi - lo))).

(** [any(xs)] on an iterable of booleans. *)
Definition any (xs : list bool) : bool := existsb (fun b => b) xs.

(** ** The optimized predicate *)

Section IsWoodall.

(** The C library's [pow] on doubles, which Python's [pow(x, y)] calls
    once both operands are floats.  Its result is platform dependent in
    the last bits, so it is a parameter of the development. *)
Variable libm_pow : PyFloat.float -> PyFloat.float -> PyFloat.float.

(** [pow(w, y)] for an [int] [w] and a [float] [y], as [is_woodall] calls
    it: with [65 <= w] and [y = 1/3], so that none of the special cases of
    Python's float power (zero exponent, base one, negative base, operands
    that are not finite) is reached.  [w] is converted to a float first,
    which is where a large [w] raises; an infinite result of the C library
    is reported as [OverflowError]. *)
Definition py_pow (w : Z) (y : PyFloat.float) : result PyFloat.float :=
  x <- PyFloat.of_int w ;;
  match libm_pow x y with
  | S754_infinity _ => Raise OverflowError
  | r => Ok r
  end.

(** [woodall = lambda k, w=w: k * 2 ** k == w].  It is only ever applied
    to [k >= 1], where [2 ** k] is an [int]. *)
Definition woodall (k : Z) (w : Z) : bool := k * 2 ^ k =? w.

(** [int(pow(w, 1/3))] *)
Definition cube_root_bound (w : Z) : result Z :=
  r <- py_pow w (PyFloat.true_div 1 3) ;;
  PyFloat.to_int r.

Definition is_woodall (z : Z) : result bool :=
  if z <? 1 then Ok false
  else
    let w := z + 1 in
    range_of_k_to_check <-
      (if z <? 64 then Ok (range 1 4)
       else b <- cube_root_bound w ;; Ok (range 1 (b + 1))) ;;
    Ok (any (map (fun k => woodall k w) range_of_k_to_check)).

End IsWoodall.

(** ** The naive predicate *)

(** The local variables of the [while] loop; [w] never changes. *)
Record loop_state : Type := LoopState { st_k : Z; st_candidate : Z }.

Inductive loop_step : Type :=
| Return (b : bool)
| Continue (s : loop_state).

(** One evaluation of the loop test followed, when it holds, by the body. *)
Definition naive_step (w : Z) (s : loop_state) : loop_step :=
  if st_candidate s <=? w then
    if w =? st_candidate s then Return true
    else
      let k := st_k s + 1 in
      Continue (LoopState k (k * 2 ^ k))
  else Return false.

(** The loop, run for at most [fuel] tests of its condition. *)
Fixpoint naive_loop (fuel : nat) (w : Z) (s : loop_state) : option bool :=
  match fuel with
  | O => None
  | S fuel' =>
      match naive_step w s with
      | Return b => Some b
      | Continue s' => naive_loop fuel' w s'
      end
  end.

Definition naive_is_woodall_fuel (fuel : nat) (z : Z) : option bool :=
  let k := 1 in
  let w := z + 1 in
  let candidate := k * 2 ^ k in
  naive_loop fuel w (LoopState k candidate).

(** A number of loop tests that always suffices (see
    [naive_is_woodall_fuel_enough]). *)
Definition naive_fuel (z : Z) : nat := S (Z.to_nat (Z.log2 (z + 1))).

Definition naive_is_woodall (z : Z) : bool :=
  match naive_is_woodall_fuel (naive_fuel z) z with
  | Some b => b
  | None => false
  end.

(** ** The integer cube root *)

(** [icbrt_bits n w r] decides the [n] low bits of the root, from the most
    significant one down, on top of the bits already fixed in [r]. *)
Fixpoint icbrt_bits (n : nat) (w r : Z) : Z :=
  match n with
  | O => r
  | S n' =>
      let r' := r + 2 ^ Z.of_nat n' in
      icbrt_bits n' w (if r' ^ 3 <=? w then r' else r)
  end.

(** The floor of the cube root of [w], for [0 <= w]. *)
Definition icbrt (w : Z) : Z :=
  icbrt_bits (Z.to_nat (Z.log2 w / 3 + 1)) w 0.

(** ** A C library to run the model with

    [Libm.pow] is one possible [libm_pow]: at the exponent [1/3], the only
    one [is_woodall] passes, it returns the cube root of its first operand
    within one unit in the last place; it knows no other exponent. *)

Module Libm.

Definition cbrt (x : PyFloat.float) : PyFloat.float :=
  match x with
  | S754_zero _ => S754_zero false
  | S754_infinity false => S754_infinity false
  | S754_finite false m e =>
      (* x = M * 2 ^ (3 * t) with M an integer of more than 160 bits *)
      let t := (e - 162) / 3 in
      let M := Z.shiftl (Zpos m) (e - 3 * t) in
      binary_normalize PyFloat.prec PyFloat.emax (icbrt M) t false
  | _ => S754_nan
  end.

Definition pow (x y : PyFloat.float) : PyFloat.float :=
  if SFeqb y (PyFloat.true_div 1 3) then cbrt x else S754_nan.

End Libm.

(** The set of test [test_is_woodall_1], taken from OEIS A003261. *)
Definition woodalls : list Z :=
  [1; 7; 23; 63; 159; 383; 895;
   2047; 4607; 10239; 22527;
   49151; 106495; 229375; 491519;
   1048575; 2228223; 4718591;
   9961471; 20971519; 44040191;
   92274687; 192937983; 402653183;
   838860799; 1744830463; 3623878655; 7516192767].

(** ** The tests

    The bodies of [test_is_woodall_1] and [test_is_woodall_2], as functions
    of the integer [z] the strategy supplies.  A test passes, fails on an
    [assert], or ends with the exception the call under test raised. *)

Inductive test_outcome : Type :=
| Passed
| AssertionError
| Errored (e : exn).

(** [not c], where evaluating [c] may raise. *)
Definition py_not (c : result bool) : result bool :=
  b <- c ;; Ok (negb b).

(** [assert c], where evaluating [c] may raise. *)
Definition py_assert (c : result bool) : test_outcome :=
  match c with
  | Ok true => Passed
  | Ok false => AssertionError
  | Raise e => Errored e
  end.

(** Two statements in sequence: the second runs when the first passed. *)
Definition and_then (first second : test_outcome) : test_outcome :=
  match first with
  | Passed => second
  | _ => first
  end.

(** [z in woodalls] *)
Definition in_woodalls (z : Z) : bool := existsb (Z.eqb z) woodalls.

Section Tests.

Variable libm_pow : PyFloat.float -> PyFloat.float -> PyFloat.float.

Definition test_is_woodall_1 (z : Z) : test_outcome :=
  if negb (in_woodalls z) then
    py_assert (py_not (is_woodall libm_pow z))
  else
    py_assert (is_woodall libm_pow z).

Definition test_is_woodall_2 (z : Z) : test_outcome :=
  and_then
    (if z <? 1 then py_assert (py_not (is_woodall libm_pow z)) else Passed)
    (if naive_is_woodall z then
       py_assert (is_woodall libm_pow z)
     else
       py_assert (py_not (is_woodall libm_pow z))).

End Tests.

(** The largest integer the strategy of [test_is_woodall_1] draws:
    [max_value=7.6e9]. *)
Definition max_value : Z := 7600000000.

(** * Properties *)

Lemma Ok_inj {A : Type} (a b : A) : Ok a = Ok b -> a = b.
Proof. intros H. now inversion H. Qed.

(** ** Arithmetic of [k * 2 ^ k] *)

Lemma woodall_term_lower (k : Z) : 1 <= k -> 2 ^ k <= k * 2 ^ k.
Proof.
  intros Hk.
  assert (0 < 2 ^ k) by (apply Z.pow_pos_nonneg; lia).
  nia.
Qed.

Lemma woodall_term_succ (k : Z) :
  1 <= k -> k * 2 ^ k < (k + 1) * 2 ^ (k + 1).
Proof.
  intros Hk.
  rewrite Z.pow_add_r by lia.
  assert (0 < 2 ^ k) by (apply Z.pow_pos_nonneg; lia).
  change (2 ^ 1) with 2. nia.
Qed.

Lemma woodall_term_mono (j k : Z) :
  1 <= j -> j <= k -> j * 2 ^ j <= k * 2 ^ k.
Proof.
  intros Hj Hjk.
  assert (0 < 2 ^ j) by (apply Z.pow_pos_nonneg; lia).
  assert (2 ^ j <= 2 ^ k) by (apply Z.pow_le_mono_r; lia).
  nia.
Qed.

Lemma woodall_term_strict (j k : Z) :
  1 <= j -> j < k -> j * 2 ^ j < k * 2 ^ k.
Proof.
  intros Hj Hjk.
  apply Z.lt_le_trans with ((j + 1) * 2 ^ (j + 1)).
  - now apply woodall_term_succ.
  - apply woodall_term_mono; lia.
Qed.

Lemma woodall_term_unbounded (w : Z) : exists k, 1 <= k /\ w < k * 2 ^ k.
Proof.
  exists (Z.max 1 (w + 1)).
  split; [lia|].
  pose proof (woodall_term_lower (Z.max 1 (w + 1)) ltac:(lia)) as Hlow.
  pose proof (Z.pow_gt_lin_r 2 (Z.max 1 (w + 1)) ltac:(lia) ltac:(lia)).
  lia.
Qed.

Lemma woodall_term_log2 (w k : Z) : 1 <= k -> k * 2 ^ k <= w -> k <= Z.log2 w.
Proof.
  intros Hk Hle.
  pose proof (woodall_term_lower k Hk) as Hlow.
  apply Z.log2_le_pow2; lia.
Qed.

(** ** The loop of [naive_is_woodall] *)

Lemma naive_loop_more_fuel (fuel fuel' : nat) (w : Z) (s : loop_state) (b : bool) :
  (fuel <= fuel')%nat ->
  naive_loop fuel w s = Some b ->
  naive_loop fuel' w s = Some b.
Proof.
  revert fuel' s.
  induction fuel as [|fuel IH]; intros fuel' s Hle Hrun; [discriminate|].
  destruct fuel' as [|fuel']; [lia|].
  simpl in *.
  destruct (naive_step w s); [assumption|].
  apply IH; [lia | assumption].
Qed.

Lemma naive_loop_terminates (fuel : nat) (w k : Z) :
  1 <= k ->
  (1 <= fuel)%nat ->
  Z.log2 w - k + 2 <= Z.of_nat fuel ->
  exists b, naive_loop fuel w (LoopState k (k * 2 ^ k)) = Some b.
Proof.
  revert k.
  induction fuel as [|fuel IH]; intros k Hk Hpos Hfuel; [lia|].
  simpl. unfold naive_step. simpl.
  destruct (Z.leb_spec (k * 2 ^ k) w) as [Hle|Hgt]; [|now exists false].
  destruct (Z.eqb_spec w (k * 2 ^ k)) as [Heq|Hne]; [now exists true|].
  pose proof (woodall_term_log2 w k Hk Hle).
  apply IH; lia.
Qed.

Lemma naive_loop_sound (fuel : nat) (w k : Z) (b : bool) :
  1 <= k ->
  naive_loop fuel w (LoopState k (k * 2 ^ k)) = Some b ->
  (b = true <-> exists j, k <= j /\ j * 2 ^ j = w).
Proof.
  revert k.
  induction fuel as [|fuel IH]; intros k Hk Hrun; [discriminate|].
  simpl in Hrun. unfold naive_step in Hrun. simpl in Hrun.
  destruct (Z.leb_spec (k * 2 ^ k) w) as [Hle|Hgt].
  - destruct (Z.eqb_spec w (k * 2 ^ k)) as [Heq|Hne].
    + injection Hrun as <-. split; [intros _|reflexivity].
      exists k. split; [lia|congruence].
    + apply IH in Hrun; [|lia].
      rewrite Hrun. split; intros [j [Hj Hw]]; exists j; split; try assumption; try lia.
      destruct (Z.eq_dec j k) as [->|]; [congruence|lia].
  - injection Hrun as <-. split; [discriminate|].
    intros [j [Hj Hw]].
    pose proof (woodall_term_mono k j Hk Hj). lia.
Qed.

Lemma naive_is_woodall_fuel_enough (z : Z) :
  naive_is_woodall_fuel (naive_fuel z) z = Some (naive_is_woodall z).
Proof.
  unfold naive_is_woodall.
  destruct (naive_loop_terminates (naive_fuel z) (z + 1) 1) as [b Hb].
  - lia.
  - unfold naive_fuel. lia.
  - unfold naive_fuel. pose proof (Z.log2_nonneg (z + 1)). lia.
  - unfold naive_is_woodall_fuel. cbv zeta. rewrite Hb. reflexivity.
Qed.

Lemma naive_is_woodall_fuel_det (fuel : nat) (z : Z) (b : bool) :
  naive_is_woodall_fuel fuel z = Some b -> naive_is_woodall z = b.
Proof.
  intros Hrun.
  pose proof (naive_is_woodall_fuel_enough z) as Hen.
  unfold naive_is_woodall_fuel in *. cbv zeta in *.
  destruct (Nat.le_ge_cases fuel (naive_fuel z)) as [Hle|Hle].
  - apply (naive_loop_more_fuel _ _ _ _ _ Hle) in Hrun. congruence.
  - apply (naive_loop_more_fuel _ _ _ _ _ Hle) in Hen. congruence.
Qed.

Lemma naive_is_woodall_true_iff (z : Z) :
  naive_is_woodall z = true <-> exists k, 0 < k /\ k * 2 ^ k = z + 1.
Proof.
  pose proof (naive_is_woodall_fuel_enough z) as Hen.
  unfold naive_is_woodall_fuel in Hen. cbv zeta in Hen.
  apply naive_loop_sound in Hen; [|lia].
  rewrite Hen.
  split; intros [j [Hj Hw]]; exists j; split; try assumption; lia.
Qed.

(** ** The search range *)

Lemma in_range (lo hi k : Z) : In k (range lo hi) <-> lo <= k < hi.
Proof.
  unfold range. rewrite in_map_iff. split.
  - intros [i [<- Hi]]. apply in_seq in Hi. lia.
  - intros Hk. exists (Z.to_nat (k - lo)). split; [lia|].
    apply in_seq. lia.
Qed.

Lemma any_woodall_true_iff (w : Z) (ks : list Z) :
  any (map (fun k => woodall k w) ks) = true <-> exists k, In k ks /\ k * 2 ^ k = w.
Proof.
  unfold any. rewrite existsb_exists. split.
  - intros [b [Hin ->]]. apply in_map_iff in Hin.
    destruct Hin as [k [Hk Hin]]. exists k. split; [assumption|].
    unfold woodall in Hk. now apply Z.eqb_eq.
  - intros [k [Hin Hw]]. exists true. split; [|reflexivity].
    apply in_map_iff. exists k. split; [|assumption].
    unfold woodall. now apply Z.eqb_eq.
Qed.

Lemma any_woodall_range (w hi : Z) :
  any (map (fun k => woodall k w) (range 1 hi)) = true <->
  exists k, 1 <= k < hi /\ k * 2 ^ k = w.
Proof.
  rewrite any_woodall_true_iff.
  split; intros [k [Hk Hw]]; exists k; (split; [now apply in_range|assumption]).
Qed.

(** ** The lemma of the notebook: squares against powers of two *)

Lemma square_le_pow2 (k : Z) : 4 <= k -> k ^ 2 <= 2 ^ k.
Proof.
  intros Hk. revert k Hk.
  apply (Z.right_induction (fun k => k ^ 2 <= 2 ^ k)).
  - intros x y ->. reflexivity.
  - reflexivity.
  - intros k Hk IH.
    rewrite Z.pow_succ_r by lia.
    (* the starred step: [2 * k ^ 2 >= k ^ 2 + 2 * k + 1] from [k >= 3] *)
    assert (Z.succ k ^ 2 <= 2 * k ^ 2) by nia.
    lia.
Qed.

Lemma cube_le_woodall_term (k : Z) : 4 <= k -> k ^ 3 <= k * 2 ^ k.
Proof.
  intros Hk.
  pose proof (square_le_pow2 k Hk).
  replace (k ^ 3) with (k * k ^ 2) by ring.
  apply Z.mul_le_mono_nonneg_l; lia.
Qed.

(** A Woodall number from 63 on has its index [k] at least 4. *)
Lemma woodall_index_ge_4 (w k : Z) : 0 < k -> 64 <= w -> k * 2 ^ k = w -> 4 <= k.
Proof.
  intros Hk Hw Heq.
  destruct (Z.le_gt_cases 4 k) as [|Hlt]; [assumption|exfalso].
  assert (Hcases : k = 1 \/ k = 2 \/ k = 3) by lia.
  destruct Hcases as [-> | [-> | ->]]; cbn in Heq; lia.
Qed.

(** ** The integer cube root *)

Lemma icbrt_bits_spec (n : nat) (w r : Z) :
  0 <= r ->
  r ^ 3 <= w < (r + 2 ^ Z.of_nat n) ^ 3 ->
  let q := icbrt_bits n w r in
  0 <= q /\ q ^ 3 <= w < (q + 1) ^ 3.
Proof.
  revert r.
  induction n as [|n IH]; intros r Hr Hw; cbn [icbrt_bits]; cbv zeta.
  - change (2 ^ Z.of_nat 0) with 1 in Hw. lia.
  - assert (Hpos : 0 < 2 ^ Z.of_nat n) by (apply Z.pow_pos_nonneg; lia).
    assert (Hdbl : 2 ^ Z.of_nat (S n) = 2 ^ Z.of_nat n + 2 ^ Z.of_nat n).
    { rewrite Nat2Z.inj_succ, Z.pow_succ_r by lia. lia. }
    rewrite Hdbl in Hw.
    destruct (Z.leb_spec ((r + 2 ^ Z.of_nat n) ^ 3) w) as [Hle|Hgt].
    + apply IH; [lia|].
      split; [assumption|].
      replace (r + 2 ^ Z.of_nat n + 2 ^ Z.of_nat n)
        with (r + (2 ^ Z.of_nat n + 2 ^ Z.of_nat n)) by ring.
      lia.
    + apply IH; [lia|]. lia.
Qed.

Lemma icbrt_spec (w : Z) :
  0 <= w -> 0 <= icbrt w /\ icbrt w ^ 3 <= w < (icbrt w + 1) ^ 3.
Proof.
  intros Hw. unfold icbrt.
  apply icbrt_bits_spec; [lia|].
  split; [simpl; lia|].
  rewrite Z.add_0_l.
  pose proof (Z.log2_nonneg w) as Hlog.
  assert (Hdiv : 0 <= Z.log2 w / 3) by (apply Z.div_pos; lia).
  rewrite Z2Nat.id by lia.
  rewrite <- Z.pow_mul_r by lia.
  assert (Hlt : Z.log2 w < (Z.log2 w / 3 + 1) * 3).
  { pose proof (Z.mod_pos_bound (Z.log2 w) 3 ltac:(lia)).
    pose proof (Z.div_mod (Z.log2 w) 3 ltac:(lia)). lia. }
  destruct (Z.eq_dec w 0) as [->|Hnz].
  - apply Z.pow_pos_nonneg; lia.
  - apply Z.log2_lt_pow2; lia.
Qed.

Lemma icbrt_ge (w k : Z) : 0 <= k -> k ^ 3 <= w -> k <= icbrt w.
Proof.
  intros Hk Hle.
  assert (Hw : 0 <= w) by (pose proof (Z.pow_nonneg k 3 Hk); lia).
  destruct (icbrt_spec w Hw) as [Hq [_ Hup]].
  destruct (Z.le_gt_cases k (icbrt w)) as [|Hgt]; [assumption|exfalso].
  assert ((icbrt w + 1) ^ 3 <= k ^ 3) by (apply Z.pow_le_mono_l; lia).
  lia.
Qed.

(** ** Conversion of a large [int] to a float *)

Lemma digits2_pos_size (m : positive) : digits2_pos m = Pos.size m.
Proof. induction m as [m IH|m IH|]; simpl; congruence. Qed.

Lemma Zdigits2_pos_gt (m : positive) : Zpos m < 2 ^ Zpos (digits2_pos m).
Proof.
  rewrite digits2_pos_size.
  pose proof (Pos.size_gt m) as H.
  apply Pos2Z.pos_lt_pos in H. now rewrite Pos2Z.inj_pow in H.
Qed.

Lemma shr_1_digits (s : shr_record) :
  Zdigits2 (shr_m (shr_1 s)) = Z.max 0 (Zdigits2 (shr_m s) - 1).
Proof.
  destruct s as [m r t]. destruct m as [|p|p]; [reflexivity| |];
    destruct p; cbn [shr_1 shr_m Zdigits2 digits2_pos];
    rewrite ?Pos2Z.inj_succ; lia.
Qed.

Lemma shr_1_nonneg (s : shr_record) : 0 <= shr_m s -> 0 <= shr_m (shr_1 s).
Proof.
  destruct s as [m r t]. destruct m as [|p|p]; simpl; [lia| |lia].
  destruct p; simpl; lia.
Qed.

Lemma iter_shr_1 (p : positive) (s : shr_record) :
  Zdigits2 (shr_m (iter_pos shr_1 p s)) = Z.max 0 (Zdigits2 (shr_m s) - Zpos p) /\
  (0 <= shr_m s -> 0 <= shr_m (iter_pos shr_1 p s)).
Proof.
  revert s. induction p as [p IH|p IH|]; intros s; cbn [iter_pos].
  - destruct (IH (shr_1 s)) as [Hd1 Hs1].
    destruct (IH (iter_pos shr_1 p (shr_1 s))) as [Hd2 Hs2].
    pose proof (shr_1_digits s). pose proof (shr_1_nonneg s).
    split; [lia|tauto].
  - destruct (IH s) as [Hd1 Hs1].
    destruct (IH (iter_pos shr_1 p s)) as [Hd2 Hs2].
    split; [lia|tauto].
  - split; [apply shr_1_digits|apply shr_1_nonneg].
Qed.

Lemma Zdigits2_pos (m : Z) : 0 < m -> 0 < Zdigits2 m.
Proof. destruct m; simpl; lia. Qed.

Lemma Zdigits2_zero (m : Z) : 0 <= m -> 0 < Zdigits2 m -> 0 < m.
Proof. destruct m; simpl; lia. Qed.

Lemma shr_m_of_loc (m : Z) (l : location) : shr_m (shr_record_of_loc m l) = m.
Proof. destruct l as [|[ | | ]]; reflexivity. Qed.

Lemma shr_fexp_large (m e : Z) (l : location) :
  0 < m -> 0 <= e ->
  0 < shr_m (fst (shr_fexp PyFloat.prec PyFloat.emax m e l)) /\
  e <= snd (shr_fexp PyFloat.prec PyFloat.emax m e l) /\
  Zdigits2 m + e - 53 <= snd (shr_fexp PyFloat.prec PyFloat.emax m e l).
Proof.
  intros Hm He.
  pose proof (Zdigits2_pos m Hm) as Hd.
  unfold shr_fexp, fexp, emin, PyFloat.prec, PyFloat.emax.
  replace (Z.max (Zdigits2 m + e - 53) (3 - 1024 - 53) - e)
    with (Zdigits2 m - 53) by lia.
  unfold shr.
  destruct (Zdigits2 m - 53) as [|p|p] eqn:Hn; cbn [fst snd].
  - rewrite shr_m_of_loc. lia.
  - destruct (iter_shr_1 p (shr_record_of_loc m l)) as [Hdig Hpos].
    rewrite shr_m_of_loc in Hdig, Hpos.
    split; [|lia].
    apply Zdigits2_zero; [apply Hpos; lia|lia].
  - rewrite shr_m_of_loc. lia.
Qed.

Lemma round_nearest_even_ge (m : Z) (l : location) : m <= round_nearest_even m l.
Proof.
  destruct l as [|[ | | ]]; cbn [round_nearest_even]; try lia.
  destruct (Z.even m); lia.
Qed.

Lemma of_int_overflow (n : Z) : 2 ^ 1024 <= n -> PyFloat.of_int n = Raise OverflowError.
Proof.
  intros Hn.
  assert (Hpos : 0 < n) by (assert (0 < 2 ^ 1024) by (apply Z.pow_pos_nonneg; lia); lia).
  destruct n as [|m|m]; [lia| |lia].
  assert (Hd : 1024 < Zpos (digits2_pos m)).
  { pose proof (Zdigits2_pos_gt m) as Hgt.
    apply (Z.pow_lt_mono_r_iff 2); lia. }
  unfold PyFloat.of_int, binary_normalize, binary_round.
  unfold shl_align.
  replace (fexp PyFloat.prec PyFloat.emax (Zpos (digits2_pos m) + 0) - 0)
    with (Zpos (digits2_pos m) - 53)
    by (unfold fexp, emin, PyFloat.prec, PyFloat.emax; lia).
  destruct (Zpos (digits2_pos m) - 53) as [|p|p] eqn:Hshift; try lia.
  unfold binary_round_aux.
  pose proof (shr_fexp_large (Zpos m) 0 loc_Exact ltac:(lia) ltac:(lia)) as H1.
  destruct (shr_fexp PyFloat.prec PyFloat.emax (Zpos m) 0 loc_Exact) as [mrs1 e1].
  cbn [fst snd] in H1. destruct H1 as [Hm1 [_ He1]].
  cbn [Zdigits2] in He1.
  pose proof (round_nearest_even_ge (shr_m mrs1) (loc_of_shr_record mrs1)) as Hr.
  pose proof (shr_fexp_large
                (round_nearest_even (shr_m mrs1) (loc_of_shr_record mrs1))
                e1 loc_Exact ltac:(lia) ltac:(lia)) as H2.
  destruct (shr_fexp PyFloat.prec PyFloat.emax
              (round_nearest_even (shr_m mrs1) (loc_of_shr_record mrs1))
              e1 loc_Exact) as [mrs2 e2].
  cbn [fst snd] in H2. destruct H2 as [Hm2 [He2 _]].
  destruct (shr_m mrs2) as [|q|q]; try lia.
  destruct (Z.leb_spec e2 (PyFloat.emax - PyFloat.prec)) as [Hle|]; [|reflexivity].
  unfold PyFloat.emax, PyFloat.prec in Hle. lia.
Qed.

(** ** The branches of [is_woodall] *)

Section Branches.

Variable libm_pow : PyFloat.float -> PyFloat.float -> PyFloat.float.

Lemma is_woodall_below_1 (z : Z) : z < 1 -> is_woodall libm_pow z = Ok false.
Proof.
  intros Hz. unfold is_woodall.
  destruct (Z.ltb_spec z 1); [reflexivity|lia].
Qed.

Lemma is_woodall_below_64 (z : Z) :
  1 <= z < 64 ->
  is_woodall libm_pow z = Ok (any (map (fun k => woodall k (z + 1)) (range 1 4))).
Proof.
  intros Hz. unfold is_woodall.
  destruct (Z.ltb_spec z 1); [lia|].
  destruct (Z.ltb_spec z 64); [reflexivity|lia].
Qed.

Lemma is_woodall_from_64 (z : Z) :
  64 <= z ->
  is_woodall libm_pow z =
  b <- cube_root_bound libm_pow (z + 1) ;;
  Ok (any (map (fun k => woodall k (z + 1)) (range 1 (b + 1)))).
Proof.
  intros Hz. unfold is_woodall.
  destruct (Z.ltb_spec z 1); [lia|].
  destruct (Z.ltb_spec z 64); [lia|].
  cbv zeta. destruct (cube_root_bound libm_pow (z + 1)); reflexivity.
Qed.

(** Whatever the C library computes, [is_woodall] accepts only Woodall
    numbers: the test [k * 2 ** k == w] is exact. *)
Lemma is_woodall_true_sound (z : Z) :
  is_woodall libm_pow z = Ok true -> naive_is_woodall z = true.
Proof.
  intros Hrun. apply naive_is_woodall_true_iff.
  destruct (Z.lt_ge_cases z 1) as [Hlt|Hge].
  { rewrite is_woodall_below_1 in Hrun by assumption. discriminate. }
  destruct (Z.lt_ge_cases z 64) as [Hlt|Hge64].
  - rewrite is_woodall_below_64 in Hrun by lia.
    apply Ok_inj, any_woodall_range in Hrun.
    destruct Hrun as [k [Hk Hw]]. exists k. split; [lia|assumption].
  - rewrite is_woodall_from_64 in Hrun by assumption.
    destruct (cube_root_bound libm_pow (z + 1)) as [b|e]; [|discriminate].
    cbn [bind] in Hrun. apply Ok_inj, any_woodall_range in Hrun.
    destruct Hrun as [k [Hk Hw]]. exists k. split; [lia|assumption].
Qed.

(** From [2 ^ 1024 - 1] on, [is_woodall] raises: [w] does not convert. *)
Lemma is_woodall_overflow (z : Z) :
  2 ^ 1024 <= z + 1 -> is_woodall libm_pow z = Raise OverflowError.
Proof.
  intros Hz.
  assert (64 < 2 ^ 1024) by reflexivity.
  rewrite is_woodall_from_64 by lia.
  unfold cube_root_bound, py_pow.
  rewrite of_int_overflow by assumption. reflexivity.
Qed.

End Branches.

Lemma naive_is_woodall_below_1 (z : Z) : z < 1 -> naive_is_woodall z = false.
Proof.
  intros Hz. apply (naive_is_woodall_fuel_det 1).
  unfold naive_is_woodall_fuel, naive_loop, naive_step. cbn [st_candidate st_k].
  change (1 * 2 ^ 1) with 2.
  destruct (Z.leb_spec 2 (z + 1)); [lia|reflexivity].
Qed.

Lemma is_woodall_agrees_below_63 libm_pow (z : Z) :
  z < 63 -> is_woodall libm_pow z = Ok (naive_is_woodall z).
Proof.
  intros Hz.
  destruct (Z.lt_ge_cases z 1) as [Hlt|Hge].
  { rewrite is_woodall_below_1, naive_is_woodall_below_1 by assumption.
    reflexivity. }
  rewrite is_woodall_below_64 by lia. f_equal.
  apply eq_true_iff_eq.
  rewrite any_woodall_range, naive_is_woodall_true_iff.
  split; intros [k [Hk Hw]]; exists k; (split; [|assumption]); [lia|].
  destruct (Z.lt_ge_cases k 4) as [|Hk4]; [lia|exfalso].
  pose proof (woodall_term_mono 4 k ltac:(lia) Hk4) as Hmono.
  change (4 * 2 ^ 4) with 64 in Hmono. lia.
Qed.

(** From index 5 on the gap between [k ^ 3] and [k * 2 ^ k] is at least the
    factor [32 / 25]. *)
Lemma square_le_pow2_margin (k : Z) : 5 <= k -> 32 * k ^ 2 <= 25 * 2 ^ k.
Proof.
  intros Hk. revert k Hk.
  apply (Z.right_induction (fun k => 32 * k ^ 2 <= 25 * 2 ^ k)).
  - intros x y ->. reflexivity.
  - reflexivity.
  - intros k Hk IH.
    rewrite Z.pow_succ_r by lia.
    assert (Z.succ k ^ 2 <= 2 * k ^ 2) by nia.
    lia.
Qed.

(** From 64 on, the two predicates agree whenever [int(pow(w, 1/3))] is
    computed and is not grossly too small: [b + 1] above the cube root of
    [25/32 * w] is enough, which a [pow] accurate to a few units in the last
    place gives with a wide margin. *)
Lemma is_woodall_agrees_from_64 libm_pow (z b : Z) :
  64 <= z ->
  cube_root_bound libm_pow (z + 1) = Ok b ->
  25 * (z + 1) < 32 * (b + 1) ^ 3 ->
  is_woodall libm_pow z = Ok (naive_is_woodall z).
Proof.
  intros Hz Hb Hacc.
  rewrite is_woodall_from_64, Hb by assumption. cbn [bind]. f_equal.
  apply eq_true_iff_eq.
  rewrite any_woodall_range, naive_is_woodall_true_iff.
  split; intros [k [Hk Hw]]; exists k; (split; [|assumption]); [lia|].
  split; [lia|].
  assert (Hk5 : 5 <= k).
  { pose proof (woodall_index_ge_4 (z + 1) k Hk ltac:(lia) Hw).
    destruct (Z.eq_dec k 4) as [->|]; [cbn in Hw; lia|lia]. }
  pose proof (square_le_pow2_margin k Hk5) as Hsq.
  assert (Hcube : 32 * k ^ 3 <= 25 * (z + 1)).
  { rewrite <- Hw. replace (32 * k ^ 3) with (k * (32 * k ^ 2)) by ring.
    replace (25 * (k * 2 ^ k)) with (k * (25 * 2 ^ k)) by ring.
    apply Z.mul_le_mono_nonneg_l; lia. }
  destruct (Z.lt_ge_cases k (b + 1)) as [|Hge]; [assumption|exfalso].
  assert (0 <= b + 1).
  { destruct (Z.le_gt_cases 0 (b + 1)) as [|Hneg]; [assumption|exfalso].
    assert ((b + 1) ^ 3 < 0) by nia. lia. }
  assert ((b + 1) ^ 3 <= k ^ 3) by (apply Z.pow_le_mono_l; lia).
  lia.
Qed.

(** The published set is exactly the Woodall numbers up to its largest
    member. *)
Lemma woodalls_complete (z : Z) :
  z <= 7516192767 -> (In z woodalls <-> naive_is_woodall z = true).
Proof.
  intros Hz. split.
  - intros Hin. unfold woodalls in Hin. cbn [In] in Hin.
    repeat (destruct Hin as [<-|Hin]; [vm_compute; reflexivity|]).
    contradiction.
  - intros Hn. apply naive_is_woodall_true_iff in Hn.
    destruct Hn as [k [Hk Hw]].
    assert (Hk28 : k <= 28).
    { destruct (Z.le_gt_cases k 28) as [|Hgt]; [assumption|exfalso].
      pose proof (woodall_term_strict 28 k ltac:(lia) Hgt) as Hst.
      change (28 * 2 ^ 28) with 7516192768 in Hst. lia. }
    assert (Hin : In k (range 1 29)) by (apply in_range; lia).
    replace z with (k * 2 ^ k - 1) by lia.
    assert (Hall : forallb (fun j => existsb (Z.eqb (j * 2 ^ j - 1)) woodalls)
                     (range 1 29) = true) by (vm_compute; reflexivity).
    rewrite forallb_forall in Hall. specialize (Hall k Hin).
    apply existsb_exists in Hall. destruct Hall as [x [Hx Heq]].
    apply Z.eqb_eq in Heq. now rewrite Heq.
Qed.

(** On the range of the published set, away from 63, [is_woodall] accepts
    exactly the members of the set, under the same condition on the bound
    from 64 on. *)
Lemma is_woodall_on_published_range libm_pow (z b : Z) :
  z <= 7516192767 ->
  z <> 63 ->
  (64 <= z ->
   cube_root_bound libm_pow (z + 1) = Ok b /\
   25 * (z + 1) < 32 * (b + 1) ^ 3) ->
  exists r, is_woodall libm_pow z = Ok r /\ (r = true <-> In z woodalls).
Proof.
  intros Hmax Hne Hbound.
  exists (naive_is_woodall z). split.
  - destruct (Z.lt_ge_cases z 63) as [Hlt|Hge].
    + now apply is_woodall_agrees_below_63.
    + destruct (Hbound ltac:(lia)) as [Hb Hacc].
      apply (is_woodall_agrees_from_64 libm_pow z b); [lia | assumption | assumption].
  - symmetry. now apply woodalls_complete.
Qed.

(** The condition on the bound is met by [Libm.pow], here at the Woodall
    number [5 * 2 ^ 5 - 1] and at the largest published one. *)
Example is_woodall_159 : is_woodall Libm.pow 159 = Ok true.
Proof.
  rewrite (is_woodall_agrees_from_64 Libm.pow 159 5);
    [reflexivity | lia | reflexivity | lia].
Qed.

Example is_woodall_7516192767 : is_woodall Libm.pow 7516192767 = Ok true.
Proof.
  rewrite (is_woodall_agrees_from_64 Libm.pow 7516192767 1958);
    [reflexivity | lia | vm_compute; reflexivity | lia].
Qed.

(** * The stated properties *)

Section Claims.

Variable libm_pow : PyFloat.float -> PyFloat.float -> PyFloat.float.

(** C1: the optimized and the naive predicate are stated to agree on
    every integer.  At [z = 63] they do not: [is_woodall] takes the branch
    [z < 64], tries [k] in [1, 2, 3] only and returns [False], while
    [naive_is_woodall] finds [4 * 2 ** 4 = 64] and returns [True]. *)
Theorem is_woodall_differs_from_naive_at_63 :
  is_woodall libm_pow 63 = Ok false /\ naive_is_woodall 63 = true.
Proof.
  split.
  - rewrite is_woodall_below_64 by lia. vm_compute. reflexivity.
  - vm_compute. reflexivity.
Qed.

(** C2: at the change of branch, [is_woodall(63)] is stated to be true and
    [is_woodall(64)] false.  The code returns [False] at 63, which is
    still in the branch of [k] in [1, 2, 3]; at 64 it never returns [True],
    and returns [False] whatever bound [int(pow(65, 1/3))] evaluates to. *)
Theorem is_woodall_at_branch_change :
  is_woodall libm_pow 63 = Ok false /\
  is_woodall libm_pow 64 <> Ok true /\
  (forall b, cube_root_bound libm_pow 65 = Ok b ->
             is_woodall libm_pow 64 = Ok false).
Proof.
  assert (Hnot : is_woodall libm_pow 64 <> Ok true).
  { intros Htrue. apply is_woodall_true_sound in Htrue.
    vm_compute in Htrue. discriminate. }
  split; [|split; [exact Hnot|]].
  - rewrite is_woodall_below_64 by lia. vm_compute. reflexivity.
  - intros b Hb.
    rewrite is_woodall_from_64 in * by lia.
    change (64 + 1) with 65 in *. rewrite Hb in *. cbn [bind] in *.
    destruct (any (map (fun k => woodall k 65) (range 1 (b + 1))));
      [now elim Hnot|reflexivity].
Qed.

(** C3: every member of the published set is stated to be accepted and
    every other integer below its largest member rejected.  The member 63
    is rejected. *)
Theorem is_woodall_rejects_published_63 :
  In 63 woodalls /\ is_woodall libm_pow 63 = Ok false.
Proof.
  split.
  - unfold woodalls. cbn [In]. tauto.
  - rewrite is_woodall_below_64 by lia. vm_compute. reflexivity.
Qed.

(** C4: [is_woodall] is stated to return a boolean on every integer.  On
    [z = 2 ** 1024] the conversion of [w = z + 1] to a float inside
    [pow(w, 1/3)] raises [OverflowError]; so it does on the Woodall number
    [1015 * 2 ** 1015 - 1]. *)
Theorem is_woodall_raises_on_large_int :
  is_woodall libm_pow (2 ^ 1024) = Raise OverflowError /\
  is_woodall libm_pow (1015 * 2 ^ 1015 - 1) = Raise OverflowError /\
  naive_is_woodall (1015 * 2 ^ 1015 - 1) = true.
Proof.
  repeat split; vm_compute; reflexivity.
Qed.

(** C7: on every integer below 1, [is_woodall] returns [False]. *)
Theorem is_woodall_nonpositive (z : Z) :
  z < 1 -> is_woodall libm_pow z = Ok false.
Proof. apply is_woodall_below_1. Qed.

(** C10: between 1 and 63 inclusive, [is_woodall] returns [True] on 1, 7
    and 23 and [False] elsewhere; 63 itself, which needs [k = 4], is not
    accepted. *)
Theorem is_woodall_small_range (z : Z) :
  1 <= z <= 63 ->
  exists b, is_woodall libm_pow z = Ok b /\
            (b = true <-> z = 1 \/ z = 7 \/ z = 23).
Proof.
  intros Hz. rewrite is_woodall_below_64 by lia.
  eexists. split; [reflexivity|].
  rewrite any_woodall_range. split.
  - intros [k [Hk Hw]].
    assert (Hcases : k = 1 \/ k = 2 \/ k = 3) by lia.
    destruct Hcases as [-> | [-> | ->]]; cbn in Hw; lia.
  - intros [-> | [-> | ->]];
      [exists 1 | exists 2 | exists 3]; (split; [lia|reflexivity]).
Qed.

End Claims.

(** C5: the bound of the search.  For [4 <= k], [k ^ 2 <= 2 ^ k]; hence a
    Woodall number [W = k * 2 ^ k - 1] from 63 on has [k ^ 3 <= W + 1], so
    that [k] is at most the integer cube root of [W + 1] and lies in the
    range [1, ..., icbrt (W + 1)]. *)
Theorem cube_root_search_bound :
  (forall k, 4 <= k -> k ^ 2 <= 2 ^ k) /\
  (forall W k, 63 <= W -> 0 < k -> W = k * 2 ^ k - 1 ->
     k ^ 3 <= W + 1 /\
     k <= icbrt (W + 1) /\
     In k (range 1 (icbrt (W + 1) + 1))).
Proof.
  split; [exact square_le_pow2|].
  intros W k HW Hk Heq.
  assert (Hw : k * 2 ^ k = W + 1) by lia.
  pose proof (woodall_index_ge_4 (W + 1) k Hk ltac:(lia) Hw) as Hk4.
  pose proof (cube_le_woodall_term k Hk4) as Hcube.
  assert (Hroot : k <= icbrt (W + 1)) by (apply icbrt_ge; lia).
  repeat split; [lia | assumption | apply in_range; lia].
Qed.

Lemma cube_root_search_bound_witness :
  4 ^ 2 <= 2 ^ 4 /\ In 4 (range 1 (icbrt (63 + 1) + 1)).
Proof.
  destruct cube_root_search_bound as [Hlemma Hprop].
  split.
  - apply (Hlemma 4). lia.
  - apply (Hprop 63 4); [lia | lia | reflexivity].
Defined.

(** C6: [naive_is_woodall] decides the definition: it returns [True]
    exactly when [z + 1 = k * 2 ^ k] for some positive integer [k].  The
    value is the one its loop returns. *)
Theorem naive_is_woodall_spec (z : Z) :
  (exists fuel, naive_is_woodall_fuel fuel z = Some (naive_is_woodall z)) /\
  (naive_is_woodall z = true <-> exists k, 0 < k /\ k * 2 ^ k = z + 1).
Proof.
  split.
  - exists (naive_fuel z). apply naive_is_woodall_fuel_enough.
  - apply naive_is_woodall_true_iff.
Qed.

(** C8: the loop of [naive_is_woodall] exits on every integer input: some
    number of tests of its condition is enough, and any larger number gives
    the same boolean.  Each iteration moves from [k * 2 ^ k] to the strictly
    larger [(k + 1) * 2 ^ (k + 1)], and these candidates exceed every
    bound. *)
Theorem naive_is_woodall_terminates :
  (forall z, exists b, forall fuel,
      (naive_fuel z <= fuel)%nat -> naive_is_woodall_fuel fuel z = Some b) /\
  (forall w k s', 1 <= k ->
      naive_step w (LoopState k (k * 2 ^ k)) = Continue s' ->
      s' = LoopState (k + 1) ((k + 1) * 2 ^ (k + 1)) /\
      k * 2 ^ k < st_candidate s') /\
  (forall w, exists k, 1 <= k /\ w < k * 2 ^ k).
Proof.
  split; [|split].
  - intros z. exists (naive_is_woodall z). intros fuel Hfuel.
    pose proof (naive_is_woodall_fuel_enough z) as Hen.
    unfold naive_is_woodall_fuel in *. cbv zeta in *.
    now apply (naive_loop_more_fuel (naive_fuel z)).
  - intros w k s' Hk Hstep.
    unfold naive_step in Hstep. cbn [st_candidate st_k] in Hstep.
    destruct (k * 2 ^ k <=? w); [|discriminate].
    destruct (w =? k * 2 ^ k); [discriminate|].
    inversion Hstep. cbn [st_candidate].
    split; [reflexivity|]. now apply woodall_term_succ.
  - apply woodall_term_unbounded.
Qed.

(** C9: on every integer below 1, [naive_is_woodall] returns [False]: the
    first candidate, 2, already exceeds [w = z + 1 <= 1], so the loop exits
    at its first test, and no [k * 2 ^ k] with [1 <= k] equals [w]. *)
Theorem naive_is_woodall_nonpositive (z : Z) :
  z < 1 ->
  naive_is_woodall z = false /\
  naive_is_woodall_fuel 1 z = Some false /\
  (forall k, 1 <= k -> k * 2 ^ k <> z + 1).
Proof.
  intros Hz.
  pose proof (naive_is_woodall_below_1 z Hz) as Hfalse.
  repeat split.
  - assumption.
  - unfold naive_is_woodall_fuel, naive_loop, naive_step.
    cbn [st_candidate st_k]. change (1 * 2 ^ 1) with 2.
    destruct (Z.leb_spec 2 (z + 1)); [lia|reflexivity].
  - intros k Hk Heq.
    pose proof (woodall_term_mono 1 k ltac:(lia) Hk) as Hmono.
    change (1 * 2 ^ 1) with 2 in Hmono. lia.
Qed.

(** ** Instances at concrete inputs *)

Lemma is_woodall_nonpositive_witness :
  -5 < 1 /\ is_woodall Libm.pow (-5) = Ok false.
Proof.
  split; [lia|]. apply (is_woodall_nonpositive Libm.pow (-5)). lia.
Defined.

Lemma is_woodall_small_range_witness :
  1 <= 63 <= 63 /\
  exists b, is_woodall Libm.pow 63 = Ok b /\
            (b = true <-> 63 = 1 \/ 63 = 7 \/ 63 = 23).
Proof.
  split; [lia|]. apply (is_woodall_small_range Libm.pow 63). lia.
Defined.

Lemma naive_is_woodall_nonpositive_witness :
  0 < 1 /\
  naive_is_woodall 0 = false /\
  naive_is_woodall_fuel 1 0 = Some false /\
  (forall k, 1 <= k -> k * 2 ^ k <> 0 + 1).
Proof.
  split; [lia|]. apply (naive_is_woodall_nonpositive 0). lia.
Defined.

(** * Further properties of the predicates and of their tests *)

(** ** Helper facts *)

Lemma naive_true_odd (z : Z) : naive_is_woodall z = true -> Z.odd z = true.
Proof.
  intros Hn. apply naive_is_woodall_true_iff in Hn.
  destruct Hn as [k [Hk Hw]].
  apply Z.odd_spec. exists (k * 2 ^ (k - 1) - 1).
  replace (2 ^ k) with (2 * 2 ^ (k - 1)) in Hw.
  - lia.
  - rewrite <- Z.pow_succ_r by lia. f_equal. lia.
Qed.

Lemma odd_not_consecutive (a b : Z) :
  Z.odd a = true -> Z.odd b = true -> b <> a + 1 /\ b <> a - 1.
Proof.
  intros Ha Hb. apply Z.odd_spec in Ha, Hb.
  destruct Ha as [x Hx], Hb as [y Hy]. lia.
Qed.

Lemma woodall_true_unique (j k w : Z) :
  1 <= j -> 1 <= k -> j * 2 ^ j = w -> k * 2 ^ k = w -> j = k.
Proof.
  intros Hj Hk Hjw Hkw.
  destruct (Z.lt_trichotomy j k) as [Hlt | [Heq | Hgt]]; [exfalso|assumption|exfalso].
  - pose proof (woodall_term_strict j k Hj Hlt). lia.
  - pose proof (woodall_term_strict k j Hk Hgt). lia.
Qed.

Lemma cube_succ_le_woodall_term (k : Z) : 6 <= k -> (k + 1) ^ 3 <= k * 2 ^ k.
Proof.
  intros Hk. revert k Hk.
  apply (Z.right_induction (fun k => (k + 1) ^ 3 <= k * 2 ^ k)).
  - intros x y ->. reflexivity.
  - vm_compute. discriminate.
  - intros k Hk IH.
    rewrite Z.pow_succ_r by lia.
    assert (0 < 2 ^ k) by (apply Z.pow_pos_nonneg; lia).
    assert (Hstep : (Z.succ k + 1) ^ 3 <= 2 * (k + 1) ^ 3) by nia.
    nia.
Qed.

(** A Woodall number from 64 on other than 159 has its index at least 6. *)
Lemma woodall_index_ge_6 (w k : Z) :
  0 < k -> 65 <= w -> w <> 160 -> k * 2 ^ k = w -> 6 <= k.
Proof.
  intros Hk Hw Hne Heq.
  pose proof (woodall_index_ge_4 w k Hk ltac:(lia) Heq) as Hk4.
  destruct (Z.eq_dec k 4) as [-> | ]; [cbn in Heq; lia|].
  destruct (Z.eq_dec k 5) as [-> | ]; [cbn in Heq; lia|].
  lia.
Qed.

Lemma in_woodalls_iff (z : Z) : in_woodalls z = true <-> In z woodalls.
Proof.
  unfold in_woodalls. rewrite existsb_exists. split.
  - intros [x [Hin Heq]]. apply Z.eqb_eq in Heq. now subst.
  - intros Hin. exists z. split; [assumption|apply Z.eqb_refl].
Qed.

(** Up to [max_value] the set of the test holds exactly the integers on
    which the naive predicate is true. *)
Lemma in_woodalls_naive (z : Z) :
  z <= max_value -> in_woodalls z = naive_is_woodall z.
Proof.
  intros Hz. apply eq_true_iff_eq. rewrite in_woodalls_iff.
  destruct (Z.le_gt_cases z 7516192767) as [Hle|Hgt].
  { now apply woodalls_complete. }
  split.
  - intros Hin. apply woodalls_complete; [|assumption].
    unfold woodalls in Hin. cbn [In] in Hin.
    repeat (destruct Hin as [<-|Hin]; [lia|]). contradiction.
  - intros Hn. exfalso. apply naive_is_woodall_true_iff in Hn.
    destruct Hn as [k [Hk Hw]].
    destruct (Z.le_gt_cases k 28) as [Hle|Hgt28].
    + pose proof (woodall_term_mono k 28 ltac:(lia) Hle) as Hmono.
      change (28 * 2 ^ 28) with 7516192768 in Hmono. lia.
    + pose proof (woodall_term_mono 29 k ltac:(lia) ltac:(lia)) as Hmono.
      change (29 * 2 ^ 29) with 15569256448 in Hmono.
      unfold max_value in Hz. lia.
Qed.

Lemma naive_loop_cost (n : nat) (w j k : Z) :
  1 <= j <= k ->
  (forall i, j <= i < k -> i * 2 ^ i < w) ->
  w <= k * 2 ^ k ->
  naive_loop n w (LoopState j (j * 2 ^ j)) =
  if (Z.to_nat (k - j + 1) <=? n)%nat then Some (w =? k * 2 ^ k) else None.
Proof.
  revert j.
  induction n as [|n IH]; intros j Hj Hbelow Hw.
  - destruct (Nat.leb_spec (Z.to_nat (k - j + 1)) 0); [lia|reflexivity].
  - cbn [naive_loop]. unfold naive_step. cbn [st_candidate st_k].
    destruct (Z.eq_dec j k) as [-> | Hne].
    + destruct (Nat.leb_spec (Z.to_nat (k - k + 1)) (S n)); [|lia].
      destruct (Z.leb_spec (k * 2 ^ k) w) as [Hle|Hgt].
      * assert (Heq : w = k * 2 ^ k) by lia.
        rewrite <- Heq, Z.eqb_refl. reflexivity.
      * destruct (Z.eqb_spec w (k * 2 ^ k)); [lia|reflexivity].
    + pose proof (Hbelow j ltac:(lia)) as Hlt.
      destruct (Z.leb_spec (j * 2 ^ j) w); [|lia].
      destruct (Z.eqb_spec w (j * 2 ^ j)); [lia|].
      rewrite IH; [|lia|intros i Hi; apply Hbelow; lia|assumption].
      destruct (Nat.leb_spec (Z.to_nat (k - (j + 1) + 1)) n);
        destruct (Nat.leb_spec (Z.to_nat (k - j + 1)) (S n)); try reflexivity; lia.
Qed.

Lemma is_woodall_agrees_with_bound libm_pow (z b : Z) :
  64 <= z ->
  cube_root_bound libm_pow (z + 1) = Ok b ->
  (forall k, 0 < k -> k * 2 ^ k = z + 1 -> k <= b) ->
  is_woodall libm_pow z = Ok (naive_is_woodall z).
Proof.
  intros Hz Hb Hbound.
  rewrite is_woodall_from_64, Hb by assumption. cbn [bind]. f_equal.
  apply eq_true_iff_eq.
  rewrite any_woodall_range, naive_is_woodall_true_iff.
  split; intros [k [Hk Hw]]; exists k; (split; [|assumption]); [lia|].
  pose proof (Hbound k Hk Hw). lia.
Qed.

Lemma test_is_woodall_2_cases libm_pow (z : Z) :
  test_is_woodall_2 libm_pow z =
  match is_woodall libm_pow z with
  | Ok b => if Bool.eqb b (naive_is_woodall z) then Passed else AssertionError
  | Raise e => Errored e
  end.
Proof.
  unfold test_is_woodall_2.
  destruct (Z.ltb_spec z 1) as [Hlt|Hge].
  - rewrite is_woodall_below_1, naive_is_woodall_below_1 by assumption.
    reflexivity.
  - destruct (is_woodall libm_pow z) as [[|]|e], (naive_is_woodall z);
      reflexivity.
Qed.

(** ** Conversion of an [int] below [2 ^ 1023] to a float *)

Lemma Zdigits2_pos_le (m : positive) : 2 ^ (Zpos (digits2_pos m) - 1) <= Zpos m.
Proof.
  rewrite digits2_pos_size.
  pose proof (Pos.size_le m) as H.
  apply Pos2Z.pos_le_pos in H. rewrite Pos2Z.inj_pow in H.
  replace (2 ^ Zpos (Pos.size m)) with (2 * 2 ^ (Zpos (Pos.size m) - 1)) in H.
  - lia.
  - rewrite <- Z.pow_succ_r by lia. f_equal. lia.
Qed.

Lemma Zdigits2_bounds (m : Z) :
  0 < m -> 2 ^ (Zdigits2 m - 1) <= m < 2 ^ Zdigits2 m.
Proof.
  destruct m as [|p|p]; try lia. intros _. cbn [Zdigits2].
  split; [apply Zdigits2_pos_le|apply Zdigits2_pos_gt].
Qed.

Lemma digits2_pos_iter_xO (q m : positive) :
  digits2_pos (Pos.iter xO m q) = (digits2_pos m + q)%positive.
Proof.
  induction q as [|q IH] using Pos.peano_ind.
  - cbn. lia.
  - rewrite Pos.iter_succ. cbn [digits2_pos]. rewrite IH. lia.
Qed.

Lemma round_nearest_even_le (m : Z) (l : location) : round_nearest_even m l <= m + 1.
Proof.
  destruct l as [|[ | | ]]; cbn [round_nearest_even]; try lia.
  destruct (Z.even m); lia.
Qed.

(** [shr_fexp] on a positive mantissa whose value has [D] digits in all,
    with [D] in the normal range: the result has at most 53 digits, exactly
    53 when a shift took place, and the exponent is as [fexp] asks. *)
Lemma shr_fexp_normal (m e : Z) (l : location) :
  0 < m -> -1021 <= Zdigits2 m + e ->
  53 <= Zdigits2 m ->
  0 < shr_m (fst (shr_fexp PyFloat.prec PyFloat.emax m e l)) /\
  Zdigits2 (shr_m (fst (shr_fexp PyFloat.prec PyFloat.emax m e l))) = 53 /\
  snd (shr_fexp PyFloat.prec PyFloat.emax m e l) = Zdigits2 m + e - 53.
Proof.
  intros Hm HD Hd.
  unfold shr_fexp, fexp, emin, PyFloat.prec, PyFloat.emax.
  replace (Z.max (Zdigits2 m + e - 53) (3 - 1024 - 53) - e)
    with (Zdigits2 m - 53) by lia.
  unfold shr.
  destruct (Zdigits2 m - 53) as [|p|p] eqn:Hn; cbn [fst snd]; try lia.
  - rewrite shr_m_of_loc. lia.
  - destruct (iter_shr_1 p (shr_record_of_loc m l)) as [Hdig Hpos].
    rewrite shr_m_of_loc in Hdig, Hpos.
    split; [|split; lia].
    apply Zdigits2_zero; [apply Hpos; lia|lia].
Qed.

Lemma binary_round_aux_finite (s : bool) (mz ez : Z) (l : location) :
  0 < mz -> 53 <= Zdigits2 mz -> -1021 <= Zdigits2 mz + ez <= 1023 ->
  exists m' e',
    binary_round_aux PyFloat.prec PyFloat.emax s mz ez l = S754_finite s m' e'.
Proof.
  intros Hm Hd HD. unfold binary_round_aux.
  pose proof (shr_fexp_normal mz ez l Hm ltac:(lia) Hd) as H1.
  destruct (shr_fexp PyFloat.prec PyFloat.emax mz ez l) as [mrs1 e1].
  cbn [fst snd] in H1. destruct H1 as [Hm1 [Hd1 He1]].
  set (m2 := round_nearest_even (shr_m mrs1) (loc_of_shr_record mrs1)).
  pose proof (round_nearest_even_ge (shr_m mrs1) (loc_of_shr_record mrs1)) as Hge.
  pose proof (round_nearest_even_le (shr_m mrs1) (loc_of_shr_record mrs1)) as Hle.
  fold m2 in Hge, Hle.
  destruct (Zdigits2_bounds (shr_m mrs1) Hm1) as [Hlo1 Hhi1].
  rewrite Hd1 in Hlo1, Hhi1.
  assert (Hm2 : 0 < m2) by lia.
  destruct (Zdigits2_bounds m2 Hm2) as [Hlo2 Hhi2].
  pose proof (Zdigits2_pos m2 Hm2) as Hpos2.
  assert (Hd2lo : 53 - 1 < Zdigits2 m2) by (apply (Z.pow_lt_mono_r_iff 2); lia).
  assert (Hd2hi : Zdigits2 m2 - 1 < 53 + 1).
  { apply (Z.pow_lt_mono_r_iff 2); [lia|lia|].
    change (2 ^ (53 + 1)) with (2 * 2 ^ 53). lia. }
  pose proof (shr_fexp_normal m2 e1 loc_Exact Hm2 ltac:(lia) ltac:(lia)) as H2.
  destruct (shr_fexp PyFloat.prec PyFloat.emax m2 e1 loc_Exact) as [mrs2 e2].
  cbn [fst snd] in H2. destruct H2 as [Hm3 [_ He2]].
  destruct (shr_m mrs2) as [|q|q]; try lia.
  destruct (Z.leb_spec e2 (PyFloat.emax - PyFloat.prec)) as [|Hgt].
  - now exists q, e2.
  - unfold PyFloat.emax, PyFloat.prec in Hgt. lia.
Qed.

Lemma of_int_finite (n : Z) :
  0 < n < 2 ^ 1023 ->
  exists m e, PyFloat.of_int n = Ok (S754_finite false m e).
Proof.
  intros [Hpos Hlt].
  destruct n as [|m|m]; try lia.
  destruct (Zdigits2_bounds (Zpos m) ltac:(lia)) as [Hlo Hhi].
  cbn [Zdigits2] in Hlo, Hhi.
  assert (Hd : Zpos (digits2_pos m) - 1 < 1023)
    by (apply (Z.pow_lt_mono_r_iff 2); lia).
  unfold PyFloat.of_int, binary_normalize, binary_round, shl_align.
  replace (fexp PyFloat.prec PyFloat.emax (Zpos (digits2_pos m) + 0))
    with (Zpos (digits2_pos m) - 53)
    by (unfold fexp, emin, PyFloat.prec, PyFloat.emax; lia).
  destruct (Zpos (digits2_pos m) - 53 - 0) as [|q|q] eqn:Hshift.
  - destruct (binary_round_aux_finite false (Zpos m) 0 loc_Exact) as [m' [e' Hr]];
      [lia | cbn [Zdigits2]; lia | cbn [Zdigits2]; lia |].
    rewrite Hr. now exists m', e'.
  - destruct (binary_round_aux_finite false (Zpos m) 0 loc_Exact) as [m' [e' Hr]];
      [lia | cbn [Zdigits2]; lia | cbn [Zdigits2]; lia |].
    rewrite Hr. now exists m', e'.
  - destruct (binary_round_aux_finite false (Zpos (Pos.iter xO m q))
                (Zpos (digits2_pos m) - 53) loc_Exact) as [m' [e' Hr]];
      [lia | | |].
    + cbn [Zdigits2]. rewrite digits2_pos_iter_xO. lia.
    + cbn [Zdigits2]. rewrite digits2_pos_iter_xO. lia.
    + rewrite Hr. now exists m', e'.
Qed.

(** ** The optimized predicate *)

Section Further.

Variable libm_pow : PyFloat.float -> PyFloat.float -> PyFloat.float.

(** X1: [is_woodall] has no false positive.  Whatever the C library's
    [pow] returns, an answer [True] means that [z = k * 2 ^ k - 1] for some
    positive [k]: the bound only limits the search, the test on each [k] is
    exact integer arithmetic. *)
Theorem is_woodall_accepts_only_woodall (z : Z) :
  is_woodall libm_pow z = Ok true ->
  exists k, 0 < k /\ z = k * 2 ^ k - 1.
Proof.
  intros Hrun. apply is_woodall_true_sound in Hrun.
  apply naive_is_woodall_true_iff in Hrun.
  destruct Hrun as [k [Hk Hw]]. exists k. split; [assumption|lia].
Qed.

(** X2: on every integer below 63, negative ones included, [is_woodall]
    returns what [naive_is_woodall] returns, with no use of floats. *)
Theorem is_woodall_correct_below_63 (z : Z) :
  z < 63 -> is_woodall libm_pow z = Ok (naive_is_woodall z).
Proof. apply is_woodall_agrees_below_63. Qed.

(** X3: from 64 on, [is_woodall] returns what [naive_is_woodall] returns
    whenever [int(pow(w, 1/3))] is at least the exact integer cube root of
    [w = z + 1]; a bound that is too large does no harm. *)
Theorem is_woodall_correct_with_exact_bound (z b : Z) :
  64 <= z ->
  cube_root_bound libm_pow (z + 1) = Ok b ->
  icbrt (z + 1) <= b ->
  is_woodall libm_pow z = Ok (naive_is_woodall z).
Proof.
  intros Hz Hb Hroot.
  apply (is_woodall_agrees_with_bound libm_pow z b Hz Hb).
  intros k Hk Hw.
  pose proof (woodall_index_ge_4 (z + 1) k Hk ltac:(lia) Hw) as Hk4.
  pose proof (cube_le_woodall_term k Hk4) as Hcube.
  pose proof (icbrt_ge (z + 1) k ltac:(lia) ltac:(lia)). lia.
Qed.

(** X4: a bound one below the exact integer cube root, as a truncated
    floating-point root can be, still gives the right answer from 64 on,
    except at [z = 159 = 5 * 2 ^ 5 - 1], whose index 5 is the cube root
    itself. *)
Theorem is_woodall_tolerates_truncated_bound (z b : Z) :
  64 <= z ->
  z <> 159 ->
  cube_root_bound libm_pow (z + 1) = Ok b ->
  icbrt (z + 1) - 1 <= b ->
  is_woodall libm_pow z = Ok (naive_is_woodall z).
Proof.
  intros Hz Hne Hb Hroot.
  apply (is_woodall_agrees_with_bound libm_pow z b Hz Hb).
  intros k Hk Hw.
  pose proof (woodall_index_ge_6 (z + 1) k Hk ltac:(lia) ltac:(lia) Hw) as Hk6.
  pose proof (cube_succ_le_woodall_term k Hk6) as Hcube.
  pose proof (icbrt_ge (z + 1) (k + 1) ltac:(lia) ltac:(lia)). lia.
Qed.

(** X5: from [z = 2 ^ 1024 - 1] on, [is_woodall] raises [OverflowError] on
    every input: [w = z + 1] does not convert to a float. *)
Theorem is_woodall_raises_from_2_pow_1024 (z : Z) :
  2 ^ 1024 <= z + 1 -> is_woodall libm_pow z = Raise OverflowError.
Proof. apply is_woodall_overflow. Qed.

(** X6: [is_woodall] accepts odd integers only, so it never accepts both
    an integer and one of its two neighbours. *)
Theorem is_woodall_accepts_only_odd (z : Z) :
  is_woodall libm_pow z = Ok true ->
  Z.odd z = true /\
  is_woodall libm_pow (z + 1) <> Ok true /\
  is_woodall libm_pow (z - 1) <> Ok true.
Proof.
  intros Hrun. apply is_woodall_true_sound, naive_true_odd in Hrun.
  split; [assumption|].
  split; intros Hnext; apply is_woodall_true_sound, naive_true_odd in Hnext;
    destruct (odd_not_consecutive z _ Hrun Hnext); lia.
Qed.

(** X7: among the first hundred integers, the ones of the notebook's
    demonstration, [is_woodall] returns [True] on 1, 7 and 23 and on no
    other. *)
Theorem is_woodall_first_hundred (z : Z) :
  0 <= z < 100 ->
  (is_woodall libm_pow z = Ok true <-> z = 1 \/ z = 7 \/ z = 23).
Proof.
  intros Hz. split.
  - intros Hrun.
    destruct (Z.eq_dec z 63) as [-> | Hne].
    { rewrite is_woodall_below_64 in Hrun by lia.
      vm_compute in Hrun. discriminate. }
    apply is_woodall_true_sound in Hrun.
    apply woodalls_complete in Hrun; [|lia].
    unfold woodalls in Hrun. cbn [In] in Hrun.
    repeat (destruct Hrun as [<-|Hrun]; [lia|]). contradiction.
  - intros [-> | [-> | ->]]; rewrite is_woodall_below_64 by lia;
      vm_compute; reflexivity.
Qed.

(** ** The test on the published set *)

(** X8: [test_is_woodall_1] passes on every integer below 63. *)
Theorem test_is_woodall_1_passes_below_63 (z : Z) :
  z < 63 -> test_is_woodall_1 libm_pow z = Passed.
Proof.
  intros Hz. unfold test_is_woodall_1.
  rewrite in_woodalls_naive by (unfold max_value; lia).
  rewrite is_woodall_agrees_below_63 by assumption.
  destruct (naive_is_woodall z); reflexivity.
Qed.

(** X9: on the integers its strategy draws, [test_is_woodall_1] fails on
    an [assert] only at a member of the set that [is_woodall] rejects,
    never at an integer outside the set. *)
Theorem test_is_woodall_1_fails_only_on_member (z : Z) :
  z <= max_value ->
  test_is_woodall_1 libm_pow z = AssertionError ->
  In z woodalls /\ is_woodall libm_pow z = Ok false.
Proof.
  intros Hz Hfail. unfold test_is_woodall_1 in Hfail.
  destruct (in_woodalls z) eqn:Hmem; cbn [negb] in Hfail.
  - split; [now apply in_woodalls_iff|].
    destruct (is_woodall libm_pow z) as [[|]|e]; cbn in Hfail;
      [discriminate|reflexivity|discriminate].
  - exfalso.
    destruct (is_woodall libm_pow z) as [[|]|e] eqn:Hrun; cbn in Hfail;
      try discriminate.
    apply is_woodall_true_sound in Hrun.
    rewrite in_woodalls_naive in Hmem by assumption. congruence.
Qed.

(** X10: on the integers its strategy draws from 64 on,
    [test_is_woodall_1] passes whenever [int(pow(w, 1/3))] is at least the
    exact integer cube root. *)
Theorem test_is_woodall_1_passes_with_exact_bound (z b : Z) :
  64 <= z <= max_value ->
  cube_root_bound libm_pow (z + 1) = Ok b ->
  icbrt (z + 1) <= b ->
  test_is_woodall_1 libm_pow z = Passed.
Proof.
  intros Hz Hb Hroot. unfold test_is_woodall_1.
  rewrite in_woodalls_naive by lia.
  assert (Hrun : is_woodall libm_pow z = Ok (naive_is_woodall z)).
  { apply (is_woodall_agrees_with_bound libm_pow z b ltac:(lia) Hb).
    intros k Hk Hw.
    pose proof (woodall_index_ge_4 (z + 1) k Hk ltac:(lia) Hw) as Hk4.
    pose proof (cube_le_woodall_term k Hk4) as Hcube.
    pose proof (icbrt_ge (z + 1) k ltac:(lia) ltac:(lia)). lia. }
  rewrite Hrun. destruct (naive_is_woodall z); reflexivity.
Qed.

(** ** The differential test *)


(** X12: [test_is_woodall_2] fails on an [assert] only at a Woodall number
    from 63 on that [is_woodall] misses. *)
Theorem test_is_woodall_2_fails_only_on_missed_woodall (z : Z) :
  test_is_woodall_2 libm_pow z = AssertionError ->
  63 <= z /\ naive_is_woodall z = true /\ is_woodall libm_pow z = Ok false.
Proof.
  rewrite test_is_woodall_2_cases. intros Hfail.
  destruct (Z.lt_ge_cases z 63) as [Hlt|Hge].
  { rewrite is_woodall_agrees_below_63, Bool.eqb_reflx in Hfail by assumption.
    discriminate. }
  split; [assumption|].
  destruct (is_woodall libm_pow z) as [[|]|e] eqn:Hrun; [| |discriminate].
  - apply is_woodall_true_sound in Hrun. rewrite Hrun in Hfail.
    discriminate.
  - destruct (naive_is_woodall z); [split; reflexivity|discriminate].
Qed.

(** X13: on every integer from [2 ^ 1024 - 1] on, which its unbounded
    strategy may draw, [test_is_woodall_2] ends with [OverflowError]. *)
Theorem test_is_woodall_2_errors_on_large_int (z : Z) :
  2 ^ 1024 <= z + 1 -> test_is_woodall_2 libm_pow z = Errored OverflowError.
Proof.
  intros Hz. rewrite test_is_woodall_2_cases.
  now rewrite is_woodall_overflow.
Qed.

(** X17: on an integer from 64 on with [z + 1 < 2 ^ 1023], [w] converts to
    a finite positive float, and [is_woodall] raises only when the C
    library's [pow] returns a NaN or an infinity on it; otherwise it returns
    a boolean. *)
Theorem is_woodall_raises_only_through_pow (z : Z) :
  64 <= z ->
  z + 1 < 2 ^ 1023 ->
  exists m e,
    PyFloat.of_int (z + 1) = Ok (S754_finite false m e) /\
    match libm_pow (S754_finite false m e) (PyFloat.true_div 1 3) with
    | S754_nan => is_woodall libm_pow z = Raise ValueError
    | S754_infinity _ => is_woodall libm_pow z = Raise OverflowError
    | _ => exists b, is_woodall libm_pow z = Ok b
    end.
Proof.
  intros Hz Hlt.
  destruct (of_int_finite (z + 1) ltac:(lia)) as [m [e Hconv]].
  exists m, e. split; [assumption|].
  rewrite is_woodall_from_64 by assumption.
  unfold cube_root_bound, py_pow. rewrite Hconv. cbn [bind].
  destruct (libm_pow (S754_finite false m e) (PyFloat.true_div 1 3));
    cbn [bind PyFloat.to_int]; try reflexivity; eexists; reflexivity.
Qed.

End Further.

(** ** The naive predicate and the published set *)

(** X14: the index of a Woodall number is unique: at most one [k >= 1]
    passes the test [k * 2 ** k == w]. *)
Theorem woodall_index_unique (j k w : Z) :
  1 <= j -> 1 <= k ->
  woodall j w = true -> woodall k w = true -> j = k.
Proof.
  unfold woodall. intros Hj Hk Hjw Hkw.
  apply Z.eqb_eq in Hjw, Hkw.
  now apply (woodall_true_unique j k w).
Qed.

(** X15: up to [max_value], the largest integer the strategy of
    [test_is_woodall_1] draws, the set of the test holds exactly the
    integers of the form [k * 2 ^ k - 1] with [k] positive. *)
Theorem woodalls_exact_on_test_domain (z : Z) :
  z <= max_value ->
  (In z woodalls <-> exists k, 0 < k /\ z = k * 2 ^ k - 1).
Proof.
  intros Hz.
  rewrite <- in_woodalls_iff, in_woodalls_naive, naive_is_woodall_true_iff
    by assumption.
  split; intros [k [Hk Hw]]; exists k; (split; [assumption|lia]).
Qed.

(** X16: the loop of [naive_is_woodall] returns at its [k]-th test, where
    [k] is the first index with [z + 1 <= k * 2 ^ k], and returns whether
    the two are equal; with fewer tests it has not returned. *)
Theorem naive_is_woodall_test_count (k z : Z) (n : nat) :
  1 <= k ->
  k = 1 \/ (k - 1) * 2 ^ (k - 1) < z + 1 ->
  z + 1 <= k * 2 ^ k ->
  naive_is_woodall_fuel n z =
  if (Z.to_nat k <=? n)%nat then Some (z + 1 =? k * 2 ^ k) else None.
Proof.
  intros Hk Hprev Hle. unfold naive_is_woodall_fuel. cbv zeta.
  rewrite (naive_loop_cost n (z + 1) 1 k); [|lia| |assumption].
  - replace (k - 1 + 1) with k by lia. reflexivity.
  - intros i Hi.
    destruct Hprev as [-> | Hprev]; [lia|].
    pose proof (woodall_term_mono i (k - 1) ltac:(lia) ltac:(lia)). lia.
Qed.

(** ** Instances at concrete inputs *)

Lemma is_woodall_accepts_only_woodall_witness :
  is_woodall Libm.pow 159 = Ok true /\
  exists k, 0 < k /\ 159 = k * 2 ^ k - 1.
Proof.
  split; [reflexivity|].
  apply (is_woodall_accepts_only_woodall Libm.pow 159). reflexivity.
Defined.

Lemma is_woodall_correct_below_63_witness :
  23 < 63 /\ is_woodall Libm.pow 23 = Ok (naive_is_woodall 23).
Proof.
  split; [lia|]. apply (is_woodall_correct_below_63 Libm.pow 23). lia.
Defined.

Lemma is_woodall_correct_with_exact_bound_witness :
  64 <= 159 /\
  cube_root_bound Libm.pow (159 + 1) = Ok 5 /\
  icbrt (159 + 1) <= 5 /\
  is_woodall Libm.pow 159 = Ok (naive_is_woodall 159).
Proof.
  assert (Hroot : icbrt (159 + 1) <= 5) by (apply Z.leb_le; reflexivity).
  split; [lia|]. split; [reflexivity|]. split; [exact Hroot|].
  apply (is_woodall_correct_with_exact_bound Libm.pow 159 5);
    [lia | reflexivity | exact Hroot].
Defined.

(** A [pow] that returns 6.0, one below the integer cube root of 384. *)
Lemma is_woodall_tolerates_truncated_bound_witness :
  let six := fun _ _ : PyFloat.float => S754_finite false 6755399441055744 (-50) in
  64 <= 383 /\
  383 <> 159 /\
  cube_root_bound six (383 + 1) = Ok 6 /\
  icbrt (383 + 1) - 1 <= 6 /\
  is_woodall six 383 = Ok (naive_is_woodall 383).
Proof.
  intros six.
  assert (Hroot : icbrt (383 + 1) - 1 <= 6) by (apply Z.leb_le; reflexivity).
  split; [lia|]. split; [lia|]. split; [reflexivity|]. split; [exact Hroot|].
  apply (is_woodall_tolerates_truncated_bound six 383 6);
    [lia | lia | reflexivity | exact Hroot].
Defined.

Lemma is_woodall_raises_from_2_pow_1024_witness :
  2 ^ 1024 <= 2 ^ 1024 + 1 /\
  is_woodall Libm.pow (2 ^ 1024) = Raise OverflowError.
Proof.
  assert (Hbig : 2 ^ 1024 <= 2 ^ 1024 + 1) by (apply Z.leb_le; reflexivity).
  split; [exact Hbig|].
  apply (is_woodall_raises_from_2_pow_1024 Libm.pow (2 ^ 1024)). exact Hbig.
Defined.

Lemma is_woodall_accepts_only_odd_witness :
  is_woodall Libm.pow 159 = Ok true /\
  Z.odd 159 = true /\
  is_woodall Libm.pow (159 + 1) <> Ok true /\
  is_woodall Libm.pow (159 - 1) <> Ok true.
Proof.
  split; [reflexivity|].
  apply (is_woodall_accepts_only_odd Libm.pow 159). reflexivity.
Defined.

Lemma is_woodall_first_hundred_witness :
  0 <= 63 < 100 /\
  (is_woodall Libm.pow 63 = Ok true <-> 63 = 1 \/ 63 = 7 \/ 63 = 23).
Proof.
  split; [lia|]. apply (is_woodall_first_hundred Libm.pow 63). lia.
Defined.

Lemma test_is_woodall_1_passes_below_63_witness :
  23 < 63 /\ test_is_woodall_1 Libm.pow 23 = Passed.
Proof.
  split; [lia|]. apply (test_is_woodall_1_passes_below_63 Libm.pow 23). lia.
Defined.

Lemma test_is_woodall_1_fails_only_on_member_witness :
  63 <= max_value /\
  test_is_woodall_1 Libm.pow 63 = AssertionError /\
  In 63 woodalls /\ is_woodall Libm.pow 63 = Ok false.
Proof.
  assert (Hdom : 63 <= max_value) by (unfold max_value; lia).
  split; [exact Hdom|]. split; [reflexivity|].
  apply (test_is_woodall_1_fails_only_on_member Libm.pow 63);
    [exact Hdom | reflexivity].
Defined.

Lemma test_is_woodall_1_passes_with_exact_bound_witness :
  64 <= 7516192767 <= max_value /\
  cube_root_bound Libm.pow (7516192767 + 1) = Ok 1958 /\
  icbrt (7516192767 + 1) <= 1958 /\
  test_is_woodall_1 Libm.pow 7516192767 = Passed.
Proof.
  assert (Hdom : 64 <= 7516192767 <= max_value) by (unfold max_value; lia).
  assert (Hb : cube_root_bound Libm.pow (7516192767 + 1) = Ok 1958)
    by (vm_compute; reflexivity).
  assert (Hroot : icbrt (7516192767 + 1) <= 1958)
    by (apply Z.leb_le; vm_compute; reflexivity).
  split; [exact Hdom|]. split; [exact Hb|]. split; [exact Hroot|].
  apply (test_is_woodall_1_passes_with_exact_bound Libm.pow 7516192767 1958);
    [exact Hdom | exact Hb | exact Hroot].
Defined.

Lemma test_is_woodall_2_fails_only_on_missed_woodall_witness :
  test_is_woodall_2 Libm.pow 63 = AssertionError /\
  63 <= 63 /\ naive_is_woodall 63 = true /\ is_woodall Libm.pow 63 = Ok false.
Proof.
  split; [reflexivity|].
  apply (test_is_woodall_2_fails_only_on_missed_woodall Libm.pow 63).
  reflexivity.
Defined.

Lemma test_is_woodall_2_errors_on_large_int_witness :
  2 ^ 1024 <= 2 ^ 1024 + 1 /\
  test_is_woodall_2 Libm.pow (2 ^ 1024) = Errored OverflowError.
Proof.
  assert (Hbig : 2 ^ 1024 <= 2 ^ 1024 + 1) by (apply Z.leb_le; reflexivity).
  split; [exact Hbig|].
  apply (test_is_woodall_2_errors_on_large_int Libm.pow (2 ^ 1024)). exact Hbig.
Defined.

Lemma woodall_index_unique_witness :
  1 <= 4 /\ 1 <= 4 /\ woodall 4 64 = true /\ woodall 4 64 = true /\ 4 = 4.
Proof.
  split; [lia|]. split; [lia|]. split; [reflexivity|]. split; [reflexivity|].
  apply (woodall_index_unique 4 4 64); [lia | lia | reflexivity | reflexivity].
Defined.

Lemma woodalls_exact_on_test_domain_witness :
  7516192768 <= max_value /\
  (In 7516192768 woodalls <-> exists k, 0 < k /\ 7516192768 = k * 2 ^ k - 1).
Proof.
  assert (Hdom : 7516192768 <= max_value) by (unfold max_value; lia).
  split; [exact Hdom|].
  apply (woodalls_exact_on_test_domain 7516192768). exact Hdom.
Defined.

Lemma naive_is_woodall_test_count_witness :
  1 <= 4 /\
  (4 = 1 \/ (4 - 1) * 2 ^ (4 - 1) < 63 + 1) /\
  63 + 1 <= 4 * 2 ^ 4 /\
  naive_is_woodall_fuel 3 63 = None /\
  naive_is_woodall_fuel 4 63 = Some true.
Proof.
  assert (Hprev : 4 = 1 \/ (4 - 1) * 2 ^ (4 - 1) < 63 + 1) by (right; reflexivity).
  assert (Hle : 63 + 1 <= 4 * 2 ^ 4) by (apply Z.leb_le; reflexivity).
  split; [lia|]. split; [exact Hprev|]. split; [exact Hle|]. split.
  - apply (naive_is_woodall_test_count 4 63 3); [lia | exact Hprev | exact Hle].
  - apply (naive_is_woodall_test_count 4 63 4); [lia | exact Hprev | exact Hle].
Defined.

Lemma is_woodall_raises_only_through_pow_witness :
  64 <= 159 /\
  159 + 1 < 2 ^ 1023 /\
  exists m e,
    PyFloat.of_int (159 + 1) = Ok (S754_finite false m e) /\
    match Libm.pow (S754_finite false m e) (PyFloat.true_div 1 3) with
    | S754_nan => is_woodall Libm.pow 159 = Raise ValueError
    | S754_infinity _ => is_woodall Libm.pow 159 = Raise OverflowError
    | _ => exists b, is_woodall Libm.pow 159 = Ok b
    end.
Proof.
  assert (Hsmall : 159 + 1 < 2 ^ 1023) by reflexivity.
  split; [lia|]. split; [exact Hsmall|].
  apply (is_woodall_raises_only_through_pow Libm.pow 159); [lia | exact Hsmall].
Defined.
